(** * The CSS selector builder of [05-objects-tasks.js]

    A shallow embedding of the class [Check] and of the facade object
    [cssSelectorBuilder], followed by the properties of the builder.

    - A JavaScript string is a [string]; [a + b] and template literals are
      [String.append], written [+:+].
    - A method either returns or throws: [completion].  A method of [Check]
      mutates [this], so it is a function from the state of [this] to a
      completion and the state [this] is left in -- also when it throws.
    - Builders are objects: the facade allocates them in a [Heap] and hands
      out references, so that two names of one builder see the same state. *)

From stdpp Require Import base strings list sorting.
From Stdlib Require Import ZArith Lia.

#[local] Open Scope Z_scope.

(** ** Completions *)

(** [new Error(message)]. *)
Record Error : Type := mkError { message : string }.

Inductive completion (A : Type) : Type :=
| Return (a : A)
| Throw (e : Error).
Arguments Return {A} a.
Arguments Throw {A} e.

(** ** A state monad with exceptions

    [M S A] is a computation over a mutable state [S] completing with an
    [A] or throwing; the state survives a throw. *)
Section Monad.
Context {S : Type}.

Definition M (A : Type) : Type := S -> completion A * S.

Definition ret {A} (a : A) : M A := fun s => (Return a, s).

Definition throw {A} (e : Error) : M A := fun s => (Throw e, s).

Definition bind {A B} (m : M A) (k : A -> M B) : M B :=
  fun s =>
    match m s with
    | (Return a, s') => k a s'
    | (Throw e, s') => (Throw e, s')
    end.

Definition get : M S := fun s => (Return s, s).

Definition modify (f : S -> S) : M unit := fun s => (Return tt, f s).
End Monad.
Arguments M S A : clear implicits.

Notation "x <- m ;; k" := (bind m (fun x => k))
  (at level 100, m at next level, right associativity).
Notation "m ;; k" := (bind m (fun _ => k))
  (at level 100, right associativity).

(** [if (c) { throw e; }] *)
Definition throw_if {S} (c : bool) (e : Error) : M S unit :=
  if c then throw e else ret tt.

(** [arr.forEach((el, i) => f(el, i))]: the callback runs on every element
    with its index, in order, and an exception from it ends the loop. *)
Fixpoint forEach_from {S A} (i : nat) (arr : list A) (f : A -> nat -> M S unit)
  : M S unit :=
  match arr with
  | [] => ret tt
  | el :: rest => f el i ;; forEach_from (Datatypes.S i) rest f
  end.

Definition forEach {S A} (arr : list A) (f : A -> nat -> M S unit) : M S unit :=
  forEach_from 0 arr f.

(** [arr.push(x)] *)
Definition push {A} (arr : list A) (x : A) : list A := arr ++ [x].

(** [el > arr[j]] on numbers: reading past the end gives [undefined], which
    [>] converts to [NaN], and every comparison with [NaN] is false. *)
Definition js_gt (el : Z) (y : option Z) : bool :=
  match y with
  | Some y => y <? el
  | None => false
  end.

(** ** The class [Check] *)
Module Check.

Record t : Type := mk {
  test : string;
  id1 : bool;
  element1 : bool;
  pseudoElement1 : bool;
  order : list Z
}.

Definition set_test (this : t) (v : string) : t :=
  mk v (id1 this) (element1 this) (pseudoElement1 this) (order this).
Definition set_id1 (this : t) (v : bool) : t :=
  mk (test this) v (element1 this) (pseudoElement1 this) (order this).
Definition set_element1 (this : t) (v : bool) : t :=
  mk (test this) (id1 this) v (pseudoElement1 this) (order this).
Definition set_pseudoElement1 (this : t) (v : bool) : t :=
  mk (test this) (id1 this) (element1 this) v (order this).
Definition set_order (this : t) (v : list Z) : t :=
  mk (test this) (id1 this) (element1 this) (pseudoElement1 this) v.

(** [constructor(val = '')]: [None] is the omitted argument. *)
Definition constructor (val : option string) : t :=
  {| test := default "" val;
     id1 := false;
     element1 := false;
     pseudoElement1 := false;
     order := [] |}.

(** The two messages the class throws. *)
Definition duplicate_message : string :=
  "Element, id and pseudo-element should not occur more then one time inside the selector".
Definition order_message : string :=
  "Selector parts should be arranged in the following order: element, id, class, attribute, pseudo-class, pseudo-element".

(** [checkOrder()]: the callback reads [this.order[i + 1]] from the live
    object. *)
Definition checkOrder : M t unit :=
  this <- get ;;
  forEach (order this) (fun el i =>
    this <- get ;;
    throw_if (js_gt el (order this !! (i + 1)%nat)) (mkError order_message)).

(** The methods return [this]: the caller goes on with the same object,
    whose state is the state the computation ends in. *)
Definition element (value : string) : M t unit :=
  this <- get ;;
  throw_if (element1 this) (mkError duplicate_message) ;;
  modify (fun this => set_test this (test this +:+ value)) ;;
  modify (fun this => set_element1 this true) ;;
  modify (fun this => set_order this (push (order this) 0)) ;;
  checkOrder.

Definition id (value : string) : M t unit :=
  this <- get ;;
  throw_if (id1 this) (mkError duplicate_message) ;;
  modify (fun this => set_test this (test this +:+ ("#" +:+ value))) ;;
  modify (fun this => set_id1 this true) ;;
  modify (fun this => set_order this (push (order this) 1)) ;;
  checkOrder.

Definition class (value : string) : M t unit :=
  modify (fun this => set_test this (test this +:+ ("." +:+ value))) ;;
  modify (fun this => set_order this (push (order this) 2)) ;;
  checkOrder.

Definition attr (value : string) : M t unit :=
  modify (fun this => set_test this (test this +:+ ("[" +:+ value +:+ "]"))) ;;
  modify (fun this => set_order this (push (order this) 3)) ;;
  checkOrder.

Definition pseudoClass (value : string) : M t unit :=
  modify (fun this => set_test this (test this +:+ (":" +:+ value))) ;;
  modify (fun this => set_order this (push (order this) 4)) ;;
  checkOrder.

Definition pseudoElement (value : string) : M t unit :=
  this <- get ;;
  throw_if (pseudoElement1 this) (mkError duplicate_message) ;;
  modify (fun this => set_test this (test this +:+ ("::" +:+ value))) ;;
  modify (fun this => set_pseudoElement1 this true) ;;
  modify (fun this => set_order this (push (order this) 5)) ;;
  checkOrder.

Definition stringify : M t string :=
  this <- get ;;
  ret (test this).

End Check.

(** ** Objects and references *)

(** The builders allocated so far; a reference is a position in the heap. *)
Abbreviation Heap := (list Check.t) (only parsing).
Abbreviation ref := nat (only parsing).

(** [new Check(val)] *)
Definition new_Check (val : option string) : M Heap ref :=
  h <- get ;;
  modify (fun h => h ++ [Check.constructor val]) ;;
  ret (length h).

(** [o.m(...)]: the method runs on the object [o] refers to and leaves its
    mutations there.  A reference to nothing has no methods to call. *)
Definition call {A} (o : ref) (m : M Check.t A) : M Heap A :=
  fun h =>
    match h !! o with
    | Some this => let (c, this') := m this in (c, <[o := this']> h)
    | None => (Throw (mkError "TypeError"), h)
    end.

(** ** The facade [cssSelectorBuilder] *)
Module cssSelectorBuilder.

Definition element (value : string) : M Heap ref :=
  o <- new_Check None ;; call o (Check.element value) ;; ret o.

Definition id (value : string) : M Heap ref :=
  o <- new_Check None ;; call o (Check.id value) ;; ret o.

Definition class (value : string) : M Heap ref :=
  o <- new_Check None ;; call o (Check.class value) ;; ret o.

Definition attr (value : string) : M Heap ref :=
  o <- new_Check None ;; call o (Check.attr value) ;; ret o.

Definition pseudoClass (value : string) : M Heap ref :=
  o <- new_Check None ;; call o (Check.pseudoClass value) ;; ret o.

Definition pseudoElement (value : string) : M Heap ref :=
  o <- new_Check None ;; call o (Check.pseudoElement value) ;; ret o.

Definition combine (selector1 : ref) (combinator : string) (selector2 : ref)
  : M Heap ref :=
  s1 <- call selector1 Check.stringify ;;
  s2 <- call selector2 Check.stringify ;;
  new_Check (Some (s1 +:+ " " +:+ combinator +:+ " " +:+ s2)).

End cssSelectorBuilder.

(** ** Callers

    What the properties quantify over: the fragment a call adds, a fluent
    chain of calls, and a history of calls whose exceptions are caught. *)

Inductive Kind : Type :=
| KElement | KId | KClass | KAttr | KPseudoClass | KPseudoElement.

Record fragment : Type := Fragment { kind : Kind; value : string }.

(** The call that adds a fragment. *)
Definition add (f : fragment) : M Check.t unit :=
  match kind f with
  | KElement => Check.element (value f)
  | KId => Check.id (value f)
  | KClass => Check.class (value f)
  | KAttr => Check.attr (value f)
  | KPseudoClass => Check.pseudoClass (value f)
  | KPseudoElement => Check.pseudoElement (value f)
  end.

(** The facade entry point that starts a builder with a fragment. *)
Definition start (f : fragment) : M Heap ref :=
  match kind f with
  | KElement => cssSelectorBuilder.element (value f)
  | KId => cssSelectorBuilder.id (value f)
  | KClass => cssSelectorBuilder.class (value f)
  | KAttr => cssSelectorBuilder.attr (value f)
  | KPseudoClass => cssSelectorBuilder.pseudoClass (value f)
  | KPseudoElement => cssSelectorBuilder.pseudoElement (value f)
  end.

(** [b.f1(v1).f2(v2)...]: the first exception ends the chain. *)
Fixpoint chain (fs : list fragment) : M Check.t unit :=
  match fs with
  | [] => ret tt
  | f :: fs => add f ;; chain fs
  end.

(** Every call of the history is made, whatever the earlier ones did; the
    completions are collected in order. *)
Fixpoint attempts (fs : list fragment) (this : Check.t)
  : list (completion unit) * Check.t :=
  match fs with
  | [] => ([], this)
  | f :: fs =>
      let (c, this') := add f this in
      let (cs, this'') := attempts fs this' in
      (c :: cs, this'')
  end.

(** [m] called [n] times in a row, the results collected. *)
Fixpoint times {S A} (n : nat) (m : M S A) : M S (list A) :=
  match n with
  | O => ret []
  | Datatypes.S n => a <- m ;; rest <- times n m ;; ret (a :: rest)
  end.

(** ** The vocabulary of the specification *)

(** The rank of a fragment kind. *)
Definition rank (k : Kind) : Z :=
  match k with
  | KElement => 0
  | KId => 1
  | KClass => 2
  | KAttr => 3
  | KPseudoClass => 4
  | KPseudoElement => 5
  end.

(** The rendered form of a fragment. *)
Definition rendered (f : fragment) : string :=
  match kind f with
  | KElement => value f
  | KId => "#" +:+ value f
  | KClass => "." +:+ value f
  | KAttr => "[" +:+ value f +:+ "]"
  | KPseudoClass => ":" +:+ value f
  | KPseudoElement => "::" +:+ value f
  end.

(** The kinds allowed at most once in a selector. *)
Definition unique (k : Kind) : bool :=
  match k with
  | KElement | KId | KPseudoElement => true
  | _ => false
  end.

#[global] Instance Kind_eq_dec : EqDecision Kind.
Proof. solve_decision. Defined.

(** How many fragments of kind [k] a sequence holds. *)
Definition occurrences (k : Kind) (fs : list fragment) : nat :=
  length (filter (fun f => kind f = k) fs).

(** A sequence honours the constraints of a compound selector. *)
Definition well_formed (fs : list fragment) : Prop :=
  Sorted Z.le (rank ∘ kind <$> fs) /\
  forall k, unique k = true -> (occurrences k fs <= 1)%nat.

(** The concatenation of the rendered forms, in order. *)
Definition concat_rendered (fs : list fragment) : string :=
  foldr String.append "" (rendered <$> fs).

(** The flag of [this] that remembers a fragment of kind [k]; the kinds
    that may repeat have none. *)
Definition seen (k : Kind) (this : Check.t) : bool :=
  match k with
  | KElement => Check.element1 this
  | KId => Check.id1 this
  | KPseudoElement => Check.pseudoElement1 this
  | _ => false
  end.

(** The object after fragment [f] has been recorded on it. *)
Definition recorded (f : fragment) (this : Check.t) : Check.t :=
  {| Check.test := Check.test this +:+ rendered f;
     Check.id1 := if decide (kind f = KId) then true else Check.id1 this;
     Check.element1 :=
       if decide (kind f = KElement) then true else Check.element1 this;
     Check.pseudoElement1 :=
       if decide (kind f = KPseudoElement) then true
       else Check.pseudoElement1 this;
     Check.order := Check.order this ++ [rank (kind f)] |}.

Definition DuplicateFragmentError : Error := mkError Check.duplicate_message.
Definition OutOfOrderError : Error := mkError Check.order_message.

(** The calls of a history that pass the duplicate check, given the kinds
    [ks] added before: a call for a unique kind already added is dropped,
    every other call is kept. *)
Fixpoint accepted_after (ks : list Kind) (fs : list fragment)
  : list fragment :=
  match fs with
  | [] => []
  | f :: fs =>
      if unique (kind f) && bool_decide (kind f ∈ ks)
      then accepted_after ks fs
      else f :: accepted_after (kind f :: ks) fs
  end.

Definition accepted (fs : list fragment) : list fragment :=
  accepted_after [] fs.

(** * Properties *)

(** ** Strings and sorted lists *)

Lemma append_assoc (a b c : string) : (a +:+ b) +:+ c = a +:+ (b +:+ c).
Proof.
  induction a as [|x a IH]; [reflexivity|].
  change (String x ((a +:+ b) +:+ c) = String x (a +:+ (b +:+ c))).
  now rewrite IH.
Qed.

Lemma Sorted_app_l (l1 l2 : list Z) : Sorted Z.le (l1 ++ l2) -> Sorted Z.le l1.
Proof.
  induction l1 as [|x l1 IH]; simpl; intros H; [constructor|].
  apply Sorted_inv in H as [Hs Hh]. constructor; [auto|].
  destruct l1; [constructor|]. inversion Hh; subst. now constructor.
Qed.

Lemma Sorted_snoc_last (l : list Z) (x : Z) :
  Sorted Z.le (l ++ [x]) <->
  Sorted Z.le l /\ forall y, last l = Some y -> y <= x.
Proof.
  induction l as [|a l IH]; simpl.
  - split; [intros _; split; [constructor | discriminate] | repeat constructor].
  - split.
    + intros H. apply Sorted_inv in H as [Hs Hh]. apply IH in Hs as [Hs Hl].
      split.
      * constructor; [assumption|]. destruct l; [constructor|].
        inversion Hh; subst. now constructor.
      * intros y Hy. destruct l as [|b l]; simpl in *.
        -- inversion Hy; subst. now inversion Hh.
        -- now apply Hl.
    + intros [H Hl]. apply Sorted_inv in H as [Hs Hh]. constructor.
      * apply IH. split; [assumption|]. intros y Hy. apply Hl.
        destruct l; [discriminate | exact Hy].
      * destruct l as [|b l]; simpl.
        -- constructor. now apply Hl.
        -- inversion Hh; subst. now constructor.
Qed.

(** ** What the methods compute *)

Lemma errors_differ : DuplicateFragmentError <> OutOfOrderError.
Proof. discriminate. Qed.

Lemma thrown_errors_differ {A : Type} :
  @Throw A DuplicateFragmentError <> Throw OutOfOrderError.
Proof. intros E. apply errors_differ. congruence. Qed.

(** The scan of [checkOrder] from position [length pre] on. *)
Lemma forEach_from_checkOrder (suf pre : list Z) (this : Check.t) :
  Check.order this = pre ++ suf ->
  forEach_from (length pre) suf (fun el i =>
      this <- get ;;
      throw_if (js_gt el (Check.order this !! (i + 1)%nat))
               (mkError Check.order_message)) this
  = (if decide (Sorted Z.le suf) then Return tt else Throw OutOfOrderError,
     this).
Proof.
  revert pre. induction suf as [|el rest IH]; intros pre Hord.
  - cbn [forEach_from]. unfold ret.
    destruct (decide (Sorted Z.le [])) as [|Hs]; [reflexivity|].
    destruct Hs. constructor.
  - cbn [forEach_from]. unfold bind at 1. unfold bind at 1, get at 1.
    replace (Check.order this !! (length pre + 1)%nat) with (head rest).
    2:{ rewrite Hord, lookup_app_r by lia.
        replace (length pre + 1 - length pre)%nat with 1%nat by lia.
        now destruct rest. }
    destruct rest as [|y rest]; simpl js_gt.
    + cbn [forEach_from throw_if]. unfold bind, ret.
      destruct (decide (Sorted Z.le [el])) as [|Hs]; [reflexivity|].
      destruct Hs. repeat constructor.
    + destruct (Z.ltb_spec y el) as [Hlt|Hle]; cbn [throw_if].
      * unfold throw.
        destruct (decide (Sorted Z.le (el :: y :: rest))) as [Hs|];
          [|reflexivity].
        apply Sorted_inv in Hs as [_ Hh]. inversion Hh; subst. lia.
      * unfold ret at 1.
        pose proof (IH (pre ++ [el])) as IH'.
        replace (length (pre ++ [el])) with (S (length pre)) in IH'
          by (rewrite length_app; simpl; lia).
        rewrite IH' by now rewrite <- app_assoc.
        destruct (decide (Sorted Z.le (y :: rest))) as [Hs|Hn];
          destruct (decide (Sorted Z.le (el :: y :: rest))) as [Hs'|Hn'];
          try reflexivity.
        -- destruct Hn'. constructor; [assumption | now constructor].
        -- destruct Hn. now apply Sorted_inv in Hs'.
Qed.

Lemma checkOrder_spec (this : Check.t) :
  Check.checkOrder this
  = (if decide (Sorted Z.le (Check.order this)) then Return tt
     else Throw OutOfOrderError, this).
Proof.
  unfold Check.checkOrder, forEach, bind at 1, get at 1.
  now apply (forEach_from_checkOrder (Check.order this) []).
Qed.

(** A call throws the duplicate error on a fragment it has seen and changes
    nothing; otherwise it records the fragment, and only then checks the
    order. *)
Lemma add_spec (f : fragment) (this : Check.t) :
  add f this =
  if seen (kind f) this then (Throw DuplicateFragmentError, this)
  else (if decide (Sorted Z.le (Check.order this ++ [rank (kind f)]))
        then Return tt else Throw OutOfOrderError,
        recorded f this).
Proof.
  destruct f as [k v], this as [t i e p o].
  destruct k; unfold add;
    unfold Check.element, Check.id, Check.class, Check.attr,
      Check.pseudoClass, Check.pseudoElement, bind, get, modify, throw_if,
      throw, ret;
    cbn -[Check.checkOrder decide];
    try match goal with |- context [if ?b then _ else _] =>
      is_var b; destruct b; [reflexivity|] end;
    rewrite checkOrder_spec; reflexivity.
Qed.

Lemma seen_not_unique (k : Kind) (this : Check.t) :
  unique k = false -> seen k this = false.
Proof. now destruct k. Qed.

Lemma seen_recorded (k : Kind) (f : fragment) (this : Check.t) :
  unique k = true ->
  seen k (recorded f this) = bool_decide (kind f = k) || seen k this.
Proof.
  destruct f as [k' v]. destruct k; try discriminate; intros _;
    destruct k'; reflexivity.
Qed.

Lemma occurrences_cons (k : Kind) (f : fragment) (fs : list fragment) :
  occurrences k (f :: fs)
  = ((if bool_decide (kind f = k) then 1 else 0) + occurrences k fs)%nat.
Proof.
  unfold occurrences. rewrite filter_cons.
  destruct (decide (kind f = k)) as [E|E].
  - now rewrite bool_decide_eq_true_2.
  - now rewrite bool_decide_eq_false_2.
Qed.

(** ** Well-formed chains *)

(** The object a chain of recorded fragments leaves behind. *)
Lemma test_foldl_recorded (fs : list fragment) (this : Check.t) :
  Check.test (foldl (fun this f => recorded f this) this fs)
  = Check.test this +:+ concat_rendered fs.
Proof.
  revert this. induction fs as [|f fs IH]; intros this.
  - unfold concat_rendered. simpl. induction (Check.test this) as [|c s IHs].
    + reflexivity.
    + change (String c s = String c (s +:+ "")). now rewrite <- IHs.
  - simpl foldl. rewrite IH. unfold concat_rendered. simpl.
    now rewrite append_assoc.
Qed.

Lemma chain_well_formed (fs : list fragment) (this : Check.t) :
  Sorted Z.le (Check.order this ++ (rank ∘ kind <$> fs)) ->
  (forall k, unique k = true ->
     ((if seen k this then 1 else 0) + occurrences k fs <= 1)%nat) ->
  chain fs this
  = (Return tt, foldl (fun this f => recorded f this) this fs).
Proof.
  revert this. induction fs as [|f fs IH]; intros this Hs Hu; [reflexivity|].
  cbn [chain foldl]. unfold bind. rewrite add_spec.
  assert (seen (kind f) this = false) as ->.
  { destruct (unique (kind f)) eqn:U; [|now apply seen_not_unique].
    specialize (Hu _ U). rewrite occurrences_cons in Hu.
    rewrite bool_decide_eq_true_2 in Hu by reflexivity.
    destruct (seen (kind f) this); [lia | reflexivity]. }
  rewrite fmap_cons, cons_middle, app_assoc in Hs.
  rewrite decide_True by (eapply Sorted_app_l, Hs).
  apply IH; [exact Hs|].
  intros k U. specialize (Hu k U). rewrite occurrences_cons in Hu.
  rewrite seen_recorded by exact U.
  destruct (bool_decide (kind f = k)), (seen k this); simpl in *; lia.
Qed.

(** C1.  A chain of calls on a fresh builder that honours the rank order and
    adds element, id and pseudo-element at most once completes without an
    exception, and [stringify()] then returns the rendered forms of the
    fragments (bare element, [#]id, [.]class, [[]attribute[]],
    [:]pseudo-class, [::]pseudo-element) concatenated in the order of the
    calls, and nothing else. *)
Theorem stringify_well_formed (fs : list fragment) :
  well_formed fs ->
  fst ((chain fs ;; Check.stringify) (Check.constructor None))
  = Return (concat_rendered fs).
Proof.
  intros [Hs Hu]. unfold bind. rewrite chain_well_formed.
  - unfold Check.stringify, bind, get, ret. cbn [fst]. f_equal.
    apply test_foldl_recorded.
  - exact Hs.
  - intros k U. specialize (Hu k U).
    replace (seen k (Check.constructor None)) with false by now destruct k.
    lia.
Qed.

Lemma stringify_well_formed_witness :
  let fs := [Fragment KElement "a"; Fragment KId "main";
             Fragment KClass "x"; Fragment KClass "y";
             Fragment KAttr "href"; Fragment KPseudoClass "focus";
             Fragment KPseudoElement "after"] in
  well_formed fs /\
  fst ((chain fs ;; Check.stringify) (Check.constructor None))
  = Return "a#main.x.y[href]:focus::after".
Proof.
  assert (well_formed
    [Fragment KElement "a"; Fragment KId "main";
     Fragment KClass "x"; Fragment KClass "y";
     Fragment KAttr "href"; Fragment KPseudoClass "focus";
     Fragment KPseudoElement "after"]) as W.
  { split; [cbn; repeat constructor; lia|].
    intros [] U; try discriminate U; vm_compute; lia. }
  split; [exact W | exact (stringify_well_formed _ W)].
Defined.

(** ** Histories of calls *)

(** A flag, once set, stays set, whatever is called and however it ends. *)
Lemma seen_add_mono (k : Kind) (f : fragment) (this : Check.t) :
  seen k this = true -> seen k (snd (add f this)) = true.
Proof.
  intros H. rewrite add_spec. destruct (seen (kind f) this); [exact H|].
  cbn [snd]. destruct (unique k) eqn:U.
  - rewrite seen_recorded, H by exact U. apply orb_true_r.
  - now rewrite seen_not_unique in H.
Qed.

(** A call for a unique kind leaves its flag set, also when it throws. *)
Lemma seen_add_same (f : fragment) (this : Check.t) :
  unique (kind f) = true -> seen (kind f) (snd (add f this)) = true.
Proof.
  intros U. rewrite add_spec. destruct (seen (kind f) this) eqn:E; [exact E|].
  cbn [snd]. rewrite seen_recorded by exact U.
  now rewrite bool_decide_eq_true_2.
Qed.

Lemma attempts_cons (f : fragment) (fs : list fragment) (this : Check.t) :
  attempts (f :: fs) this
  = (fst (add f this) :: fst (attempts fs (snd (add f this))),
     snd (attempts fs (snd (add f this)))).
Proof.
  cbn [attempts]. destruct (add f this) as [c this']. cbn [fst snd].
  now destruct (attempts fs this').
Qed.

Lemma seen_attempts_mono (k : Kind) (fs : list fragment) (this : Check.t) :
  seen k this = true -> seen k (snd (attempts fs this)) = true.
Proof.
  revert this. induction fs as [|f fs IH]; intros this H; [exact H|].
  rewrite attempts_cons. cbn [snd]. now apply IH, seen_add_mono.
Qed.

Lemma seen_attempts_occurs (k : Kind) (fs : list fragment) (this : Check.t) :
  unique k = true -> (0 < occurrences k fs)%nat ->
  seen k (snd (attempts fs this)) = true.
Proof.
  intros U. revert this. induction fs as [|f fs IH]; intros this H.
  - cbn in H. lia.
  - rewrite attempts_cons. cbn [snd]. rewrite occurrences_cons in H.
    destruct (decide (kind f = k)) as [<-|N].
    + now apply seen_attempts_mono, seen_add_same.
    + rewrite bool_decide_eq_false_2 in H by exact N. apply IH. lia.
Qed.

(** C2.  Whatever calls were made on a builder before, and however each of
    them ended, once [element] (or [id], or [pseudoElement]) is among them
    the next call of the same method throws the error whose message says
    that element, id and pseudo-element occur at most once. *)
Theorem duplicate_raises (val : option string) (fs : list fragment)
    (k : Kind) (v : string) :
  unique k = true ->
  (0 < occurrences k fs)%nat ->
  fst (add (Fragment k v) (snd (attempts fs (Check.constructor val))))
  = Throw DuplicateFragmentError /\
  message DuplicateFragmentError
  = "Element, id and pseudo-element should not occur more then one time inside the selector".
Proof.
  intros U H. split; [|reflexivity].
  rewrite add_spec. cbn [kind].
  now rewrite (seen_attempts_occurs k fs _ U H).
Qed.

Lemma duplicate_raises_witness :
  let fs := [Fragment KId "main"; Fragment KClass "x"; Fragment KAttr "y";
             Fragment KClass "z"; Fragment KPseudoClass "hover"] in
  (unique KId = true /\ (0 < occurrences KId fs)%nat) /\
  fst (add (Fragment KId "other")
         (snd (attempts fs (Check.constructor None))))
  = Throw DuplicateFragmentError /\
  message DuplicateFragmentError
  = "Element, id and pseudo-element should not occur more then one time inside the selector".
Proof.
  split; [split; [reflexivity | vm_compute; lia]|].
  apply (duplicate_raises None); [reflexivity | vm_compute; lia].
Defined.

(** C4, as the code has it.  A duplicate [element], [id] or
    [pseudoElement] call throws before it touches the builder: the rendered
    string, the flags and the ranks are those from before the call. *)
Theorem duplicate_leaves_builder (val : option string) (fs : list fragment)
    (k : Kind) (v : string) :
  unique k = true ->
  (0 < occurrences k fs)%nat ->
  let this := snd (attempts fs (Check.constructor val)) in
  snd (add (Fragment k v) this) = this /\
  Check.stringify (snd (add (Fragment k v) this))
  = (Return (Check.test this), this).
Proof.
  intros U H this. assert (snd (add (Fragment k v) this) = this) as E.
  { rewrite add_spec. cbn [kind]. subst this.
    now rewrite (seen_attempts_occurs k fs _ U H). }
  rewrite E. split; reflexivity.
Qed.

Lemma duplicate_leaves_builder_witness :
  let fs := [Fragment KElement "div"; Fragment KClass "x"] in
  let this := snd (attempts fs (Check.constructor None)) in
  (unique KElement = true /\ (0 < occurrences KElement fs)%nat) /\
  snd (add (Fragment KElement "span") this) = this /\
  Check.stringify (snd (add (Fragment KElement "span") this))
  = (Return (Check.test this), this).
Proof.
  split; [split; [reflexivity | vm_compute; lia]|].
  apply (duplicate_leaves_builder None); [reflexivity | vm_compute; lia].
Defined.

(** C4, as stated, fails on [element('a').element('b')]: the second call
    throws the duplicate error and the rendered string is still ['a']. *)
Lemma duplicate_appends_counterexample :
  let this := snd (chain [Fragment KElement "a"] (Check.constructor None)) in
  let f := Fragment KElement "b" in
  Check.test this = "a" /\
  fst (add f this) = Throw DuplicateFragmentError /\
  Check.test (snd (add f this)) = "a" /\
  Check.test (snd (add f this)) <> Check.test this +:+ rendered f.
Proof. vm_compute. repeat split; discriminate. Qed.

(** ** The order check *)

(** C3, as the code has it.  When the rank of the new fragment is below the
    rank of the fragment added last, the call throws: the out-of-order error
    with its message, unless the fragment is an element or an id the
    builder already has, for which the duplicate check, made first, throws
    the duplicate error.  On a builder whose ranks are non-decreasing, a
    fragment of a rank at least the last one does not throw the
    out-of-order error. *)
Theorem order_error_on_lower_rank (this : Check.t) (f : fragment) :
  ((exists r, last (Check.order this) = Some r /\ rank (kind f) < r) ->
   fst (add f this)
   = Throw (if seen (kind f) this then DuplicateFragmentError
            else OutOfOrderError)) /\
  (Sorted Z.le (Check.order this) ->
   (forall r, last (Check.order this) = Some r -> r <= rank (kind f)) ->
   fst (add f this) <> Throw OutOfOrderError) /\
  message OutOfOrderError
  = "Selector parts should be arranged in the following order: element, id, class, attribute, pseudo-class, pseudo-element".
Proof.
  split; [|split; [|reflexivity]].
  - intros (r & Hl & Hr). rewrite add_spec.
    destruct (seen (kind f) this); [reflexivity|]. cbn [fst].
    rewrite decide_False; [reflexivity|].
    intros Hs. apply Sorted_snoc_last in Hs as [_ Hs].
    specialize (Hs r Hl). lia.
  - intros Hs Hl. rewrite add_spec.
    destruct (seen (kind f) this); cbn [fst].
    + apply thrown_errors_differ.
    + rewrite decide_True; [discriminate|].
      apply Sorted_snoc_last. now split.
Qed.

Lemma order_error_on_lower_rank_witness :
  let after_attr := snd (chain [Fragment KAttr "a"] (Check.constructor None)) in
  let after_id := snd (chain [Fragment KId "a"] (Check.constructor None)) in
  fst (add (Fragment KClass "b") after_attr) = Throw OutOfOrderError /\
  fst (add (Fragment KClass "b") after_id) <> Throw OutOfOrderError.
Proof.
  split.
  - apply (order_error_on_lower_rank
             (snd (chain [Fragment KAttr "a"] (Check.constructor None)))
             (Fragment KClass "b")).
    exists 3. split; [reflexivity | vm_compute; reflexivity].
  - apply (order_error_on_lower_rank
             (snd (chain [Fragment KId "a"] (Check.constructor None)))
             (Fragment KClass "b")).
    + vm_compute. repeat constructor.
    + intros r E. vm_compute in E. injection E as <-. vm_compute. discriminate.
Defined.

(** C3, as stated, fails on [element('a').class('b').element('c')]: the
    rank of the new element is below the rank of the class added last, and
    the call throws the duplicate error, not the out-of-order error.  And
    on a builder that has thrown the out-of-order error before, as after
    [class('a')] and [element('b')], a further [class('c')] throws it again
    although its rank is not below the last one. *)
Lemma order_error_counterexample :
  let this := snd (chain [Fragment KElement "a"; Fragment KClass "b"]
                     (Check.constructor None)) in
  let f := Fragment KElement "c" in
  let failed := snd (attempts [Fragment KClass "a"; Fragment KElement "b"]
                       (Check.constructor None)) in
  let g := Fragment KClass "c" in
  (last (Check.order this) = Some (rank KClass) /\
   rank (kind f) < rank KClass /\
   fst (add f this) = Throw DuplicateFragmentError /\
   fst (add f this) <> Throw OutOfOrderError) /\
  (last (Check.order failed) = Some (rank KElement) /\
   rank KElement <= rank (kind g) /\
   fst (add g failed) = Throw OutOfOrderError).
Proof. vm_compute. repeat split; discriminate. Qed.

Lemma add_Sorted (f : fragment) (this : Check.t) :
  Sorted Z.le (Check.order (snd (add f this))) <->
  Sorted Z.le (Check.order this) /\ fst (add f this) <> Throw OutOfOrderError.
Proof.
  rewrite add_spec. destruct (seen (kind f) this); cbn [fst snd].
  - split; [intros H; split; [exact H|] | now intros [H _]].
    apply thrown_errors_differ.
  - cbn [recorded Check.order].
    destruct (decide (Sorted Z.le (Check.order this ++ [rank (kind f)])))
      as [Hs|Hn].
    + split; [intros _; split; [now apply Sorted_app_l in Hs | discriminate]
             | intros _; exact Hs].
    + split; [intros Hs; now destruct Hn | now intros [_ E]].
Qed.

Lemma attempts_Sorted (fs : list fragment) (this : Check.t) :
  Sorted Z.le (Check.order (snd (attempts fs this))) <->
  Sorted Z.le (Check.order this) /\
  Throw OutOfOrderError ∉ fst (attempts fs this).
Proof.
  revert this. induction fs as [|f fs IH]; intros this.
  - cbn. split; [intros H; split; [exact H | apply not_elem_of_nil]
                | now intros [H _]].
  - rewrite attempts_cons. cbn [fst snd]. rewrite IH, add_Sorted.
    rewrite not_elem_of_cons. intuition congruence.
Qed.

(** C7.  Over any history of calls on a new builder, the recorded ranks end
    up non-decreasing exactly when no call threw the out-of-order error;
    and a call that returns, on any builder, leaves the recorded ranks
    non-decreasing: the order is checked by the call itself. *)
Theorem order_nondecreasing_iff (val : option string) (fs : list fragment) :
  (Sorted Z.le (Check.order (snd (attempts fs (Check.constructor val)))) <->
   Throw OutOfOrderError ∉ fst (attempts fs (Check.constructor val))) /\
  (forall this f,
     fst (add f this) = Return tt ->
     Sorted Z.le (Check.order (snd (add f this)))).
Proof.
  split.
  - rewrite attempts_Sorted. cbn [Check.constructor Check.order].
    split; [now intros [_ H] | intros H; split; [constructor | exact H]].
  - intros this f. rewrite add_spec.
    destruct (seen (kind f) this); cbn [fst snd]; [discriminate|].
    destruct (decide _) as [Hs|]; [intros _; exact Hs | discriminate].
Qed.

(** ** [stringify] *)

(** C8.  [stringify()] returns the rendered string and leaves the builder
    as it was, in every state; it does not throw; and called any number of
    times in a row it returns that same string every time. *)
Theorem stringify_pure (this : Check.t) (n : nat) :
  Check.stringify this = (Return (Check.test this), this) /\
  times n Check.stringify this
  = (Return (replicate n (Check.test this)), this).
Proof.
  split; [reflexivity|]. induction n as [|n IH]; [reflexivity|].
  cbn [times replicate]. unfold bind at 1. cbn.
  unfold bind at 1. now rewrite IH.
Qed.

(** C9.  A call that throws the out-of-order error has by then appended the
    text of its fragment and pushed its rank: [stringify()] on the builder
    afterwards returns a string that ends with the offending fragment. *)
Theorem order_error_after_recording (this : Check.t) (f : fragment) :
  fst (add f this) = Throw OutOfOrderError ->
  Check.test (snd (add f this)) = Check.test this +:+ rendered f /\
  Check.order (snd (add f this)) = push (Check.order this) (rank (kind f)) /\
  fst (Check.stringify (snd (add f this)))
  = Return (Check.test this +:+ rendered f).
Proof.
  rewrite add_spec. destruct (seen (kind f) this); cbn [fst snd].
  - intros E. now destruct (thrown_errors_differ E).
  - intros _. repeat split.
Qed.

Lemma order_error_after_recording_witness :
  let this := snd (chain [Fragment KClass "a"] (Check.constructor None)) in
  let f := Fragment KElement "b" in
  fst (add f this) = Throw OutOfOrderError /\
  Check.test (snd (add f this)) = ".ab" /\
  Check.order (snd (add f this)) = [2; 0] /\
  fst (Check.stringify (snd (add f this))) = Return ".ab".
Proof.
  split; [reflexivity|].
  apply (order_error_after_recording
           (snd (chain [Fragment KClass "a"] (Check.constructor None)))
           (Fragment KElement "b")).
  reflexivity.
Defined.

(** ** The heap and [combine] *)

Lemma call_spec {A} (h : Heap) (o : ref) (m : M Check.t A) (this : Check.t) :
  h !! o = Some this ->
  call o m h = (fst (m this), <[o := snd (m this)]> h).
Proof. intros E. unfold call. rewrite E. now destruct (m this). Qed.

Lemma call_stringify (h : Heap) (o : ref) (this : Check.t) :
  h !! o = Some this ->
  call o Check.stringify h = (Return (Check.test this), h).
Proof.
  intros E. rewrite (call_spec h o _ this E).
  change (Check.stringify this) with (Return (Check.test this), this).
  cbn [fst snd]. now rewrite list_insert_id.
Qed.

Lemma call_stringify_inv (h : Heap) (o : ref) (a : string) :
  fst (call o Check.stringify h) = Return a ->
  exists this, h !! o = Some this /\ Check.test this = a.
Proof.
  unfold call. destruct (h !! o) as [this|]; [|discriminate].
  cbn. intros [= <-]. now exists this.
Qed.

Lemma combine_spec (h : Heap) (selector1 selector2 : ref)
    (combinator : string) (this1 this2 : Check.t) :
  h !! selector1 = Some this1 ->
  h !! selector2 = Some this2 ->
  cssSelectorBuilder.combine selector1 combinator selector2 h
  = (Return (length h),
     h ++ [Check.constructor
             (Some (Check.test this1 +:+ " " +:+ combinator +:+ " "
                    +:+ Check.test this2))]).
Proof.
  intros E1 E2. unfold cssSelectorBuilder.combine, bind.
  now rewrite (call_stringify h _ _ E1), (call_stringify h _ _ E2).
Qed.

Lemma lookup_new (h : Heap) (this : Check.t) :
  (h ++ [this]) !! length h = Some this.
Proof. now apply list_lookup_middle. Qed.

(** C5.  Whatever the combinator text, [combine] returns: its result is a
    reference to a new builder, the builders there were are as before, and
    [stringify()] on the new builder returns what the left one returns,
    a space, the combinator, a space, and what the right one returns. *)
Theorem combine_stringify (h : Heap) (selector1 selector2 : ref)
    (combinator a b : string) :
  fst (call selector1 Check.stringify h) = Return a ->
  fst (call selector2 Check.stringify h) = Return b ->
  let composite := a +:+ " " +:+ combinator +:+ " " +:+ b in
  cssSelectorBuilder.combine selector1 combinator selector2 h
  = (Return (length h), h ++ [Check.constructor (Some composite)]) /\
  h !! length h = None /\
  fst ((o <- cssSelectorBuilder.combine selector1 combinator selector2 ;;
        call o Check.stringify) h)
  = Return composite.
Proof.
  intros (this1 & E1 & <-)%call_stringify_inv
         (this2 & E2 & <-)%call_stringify_inv composite.
  split; [now apply combine_spec|].
  split; [now apply lookup_ge_None|].
  unfold bind at 1. rewrite (combine_spec h _ _ _ _ _ E1 E2).
  now rewrite (call_stringify _ _ _ (lookup_new h _)).
Qed.

Lemma combine_stringify_witness :
  let h := [Check.constructor (Some "p:focus");
            Check.constructor (Some "a[href]")] in
  (fst (call 0%nat Check.stringify h) = Return "p:focus" /\
   fst (call 1%nat Check.stringify h) = Return "a[href]") /\
  cssSelectorBuilder.combine 0%nat "not a combinator" 1%nat h
  = (Return 2%nat,
     h ++ [Check.constructor (Some "p:focus not a combinator a[href]")]) /\
  h !! 2%nat = None /\
  fst ((o <- cssSelectorBuilder.combine 0%nat "not a combinator" 1%nat ;;
        call o Check.stringify) h)
  = Return "p:focus not a combinator a[href]".
Proof.
  split; [split; reflexivity|].
  apply (combine_stringify
           [Check.constructor (Some "p:focus");
            Check.constructor (Some "a[href]")]
           0%nat 1%nat "not a combinator" "p:focus" "a[href]");
    reflexivity.
Defined.

(** C6.  Nested combinations concatenate: with [+] and a space inside and
    [~] outside, the result is [A + B ~ C   D], the space combinator
    standing between its two padding spaces. *)
Theorem combine_nested (h : Heap) (A B C D : ref) (a b c d : string) :
  fst (call A Check.stringify h) = Return a ->
  fst (call B Check.stringify h) = Return b ->
  fst (call C Check.stringify h) = Return c ->
  fst (call D Check.stringify h) = Return d ->
  fst ((x <- cssSelectorBuilder.combine A "+" B ;;
        y <- cssSelectorBuilder.combine C " " D ;;
        z <- cssSelectorBuilder.combine x "~" y ;;
        call z Check.stringify) h)
  = Return (a +:+ " + " +:+ b +:+ " ~ " +:+ c +:+ "   " +:+ d).
Proof.
  intros (sa & Ea & <-)%call_stringify_inv (sb & Eb & <-)%call_stringify_inv
         (sc & Ec & <-)%call_stringify_inv (sd & Ed & <-)%call_stringify_inv.
  unfold bind at 1. rewrite (combine_spec h _ _ _ _ _ Ea Eb).
  set (x := Check.constructor _). unfold bind at 1.
  rewrite (combine_spec (h ++ [x]) C D " " sc sd)
    by now apply lookup_app_l_Some.
  set (y := Check.constructor _). unfold bind at 1.
  rewrite (combine_spec ((h ++ [x]) ++ [y]) _ _ "~" x y).
  - rewrite (call_stringify _ _ _ (lookup_new _ _)). cbn [fst]. f_equal.
    subst x y. cbn [Check.constructor Check.test default]. cbv [id].
    now rewrite !append_assoc.
  - apply lookup_app_l_Some, lookup_new.
  - apply lookup_new.
Qed.

Lemma combine_nested_witness :
  let h := [Check.constructor (Some "div#main");
            Check.constructor (Some "table#data");
            Check.constructor (Some "tr:nth-of-type(even)");
            Check.constructor (Some "td:nth-of-type(even)")] in
  fst ((x <- cssSelectorBuilder.combine 0%nat "+" 1%nat ;;
        y <- cssSelectorBuilder.combine 2%nat " " 3%nat ;;
        z <- cssSelectorBuilder.combine x "~" y ;;
        call z Check.stringify) h)
  = Return "div#main + table#data ~ tr:nth-of-type(even)   td:nth-of-type(even)".
Proof.
  apply (combine_nested
           [Check.constructor (Some "div#main");
            Check.constructor (Some "table#data");
            Check.constructor (Some "tr:nth-of-type(even)");
            Check.constructor (Some "td:nth-of-type(even)")]
           0%nat 1%nat 2%nat 3%nat
           "div#main" "table#data"
           "tr:nth-of-type(even)" "td:nth-of-type(even)");
    reflexivity.
Defined.

(** On a builder just constructed every fragment call returns, and leaves
    the fragment recorded. *)
Lemma add_constructor (val : option string) (f : fragment) :
  add f (Check.constructor val)
  = (Return tt, recorded f (Check.constructor val)).
Proof.
  rewrite add_spec.
  replace (seen (kind f) (Check.constructor val)) with false
    by now destruct (kind f).
  rewrite decide_True; [reflexivity|]. cbn. repeat constructor.
Qed.

(** C10.  The builder [combine] returns has its three flags false and no
    recorded rank, so any fragment call on it returns, as on an empty
    builder, and [stringify()] then gives the composite string followed
    directly by the rendered fragment: by [v] itself after [element(v)]. *)
Theorem combined_builder_is_empty (h : Heap) (selector1 selector2 : ref)
    (combinator a b : string) (f : fragment) (v : string) :
  fst (call selector1 Check.stringify h) = Return a ->
  fst (call selector2 Check.stringify h) = Return b ->
  let composite := a +:+ " " +:+ combinator +:+ " " +:+ b in
  let combined := cssSelectorBuilder.combine selector1 combinator selector2 in
  (exists o h' this,
     combined h = (Return o, h') /\ h' !! o = Some this /\
     Check.element1 this = false /\ Check.id1 this = false /\
     Check.pseudoElement1 this = false /\ Check.order this = [] /\
     fst (add f this) = Return tt) /\
  fst ((o <- combined ;; call o (add f) ;; call o Check.stringify) h)
  = Return (composite +:+ rendered f) /\
  fst ((o <- combined ;; call o (Check.element v) ;;
        call o Check.stringify) h)
  = Return (composite +:+ v).
Proof.
  intros (this1 & E1 & <-)%call_stringify_inv
         (this2 & E2 & <-)%call_stringify_inv composite combined.
  assert (forall g,
    fst ((o <- combined ;; call o (add g) ;; call o Check.stringify) h)
    = Return (composite +:+ rendered g)) as Hadd.
  { intros g. subst combined. unfold bind at 1.
    rewrite (combine_spec h _ _ _ _ _ E1 E2). unfold bind at 1.
    rewrite (call_spec _ _ _ _ (lookup_new h _)), add_constructor.
    cbn [fst snd].
    rewrite (call_stringify _ _
               (recorded g (Check.constructor (Some composite))));
      [reflexivity|].
    apply list_lookup_insert_eq. rewrite length_app. cbn. lia. }
  split; [|split; [apply Hadd | apply (Hadd (Fragment KElement v))]].
  exists (length h), (h ++ [Check.constructor (Some composite)]),
    (Check.constructor (Some composite)).
  split; [exact (combine_spec h _ _ _ _ _ E1 E2)|].
  split; [apply lookup_new|]. repeat split.
  now rewrite add_constructor.
Qed.

Lemma combined_builder_is_empty_witness :
  let h := [snd (chain [Fragment KElement "div"; Fragment KId "main"]
                   (Check.constructor None));
            snd (chain [Fragment KElement "p"; Fragment KPseudoElement "x"]
                   (Check.constructor None))] in
  let combined := cssSelectorBuilder.combine 0%nat ">" 1%nat in
  (exists o h' this,
     combined h = (Return o, h') /\ h' !! o = Some this /\
     Check.element1 this = false /\ Check.id1 this = false /\
     Check.pseudoElement1 this = false /\ Check.order this = [] /\
     fst (add (Fragment KId "late") this) = Return tt) /\
  fst ((o <- combined ;; call o (add (Fragment KId "late")) ;;
        call o Check.stringify) h)
  = Return "div#main > p::x#late" /\
  fst ((o <- combined ;; call o (Check.element "span") ;;
        call o Check.stringify) h)
  = Return "div#main > p::xspan".
Proof.
  apply (combined_builder_is_empty
           [snd (chain [Fragment KElement "div"; Fragment KId "main"]
                   (Check.constructor None));
            snd (chain [Fragment KElement "p"; Fragment KPseudoElement "x"]
                   (Check.constructor None))]
           0%nat 1%nat ">" "div#main" "p::x" (Fragment KId "late") "span");
    reflexivity.
Defined.

(** ** The facade entry points *)

(** An entry point allocates a builder and records its fragment on it. *)
Lemma start_spec (f : fragment) (h : Heap) :
  start f h
  = (Return (length h), h ++ [recorded f (Check.constructor None)]).
Proof.
  assert (forall m : M Check.t unit,
    m (Check.constructor None)
    = (Return tt, recorded f (Check.constructor None)) ->
    (o <- new_Check None ;; call o m ;; ret o) h
    = (Return (length h), h ++ [recorded f (Check.constructor None)])) as H.
  { intros m Hm. unfold bind at 1. cbn [new_Check].
    change (new_Check None h)
      with (Return (length h), h ++ [Check.constructor None]).
    cbn iota beta. unfold bind at 1.
    rewrite (call_spec _ _ _ _ (lookup_new h _)), Hm. cbn [fst snd].
    unfold ret. f_equal.
    rewrite insert_app_r_alt, Nat.sub_diag by lia. reflexivity. }
  pose proof (add_constructor None f) as Hf.
  destruct f as [[] v]; apply H; exact Hf.
Qed.

(** A chain started at the facade is the chain of calls on [new Check()]. *)
Lemma start_chain (f : fragment) (fs : list fragment) (h : Heap) :
  fst ((o <- start f ;; call o (chain fs) ;; call o Check.stringify) h)
  = fst ((chain (f :: fs) ;; Check.stringify) (Check.constructor None)).
Proof.
  cbn [chain]. unfold bind. rewrite start_spec.
  rewrite (call_spec _ _ _ _ (lookup_new h _)), add_constructor.
  destruct (chain fs (recorded f (Check.constructor None))) as [[[]|e] s'];
    cbn [fst snd]; [|reflexivity].
  rewrite (call_stringify _ _ s'); [reflexivity|].
  apply list_lookup_insert_eq. rewrite length_app. cbn. lia.
Qed.

(** The examples of the source's documentation. *)
Example builder_example_id_class :
  fst ((o <- cssSelectorBuilder.id "main" ;;
        call o (Check.class "container") ;;
        call o (Check.class "editable") ;;
        call o Check.stringify) [])
  = Return "#main.container.editable".
Proof. reflexivity. Qed.

Example builder_example_combine :
  fst ((div <- cssSelectorBuilder.element "div" ;;
        call div (Check.id "main") ;;
        call div (Check.class "container") ;;
        call div (Check.class "draggable") ;;
        table <- cssSelectorBuilder.element "table" ;;
        call table (Check.id "data") ;;
        tr <- cssSelectorBuilder.element "tr" ;;
        call tr (Check.pseudoClass "nth-of-type(even)") ;;
        td <- cssSelectorBuilder.element "td" ;;
        call td (Check.pseudoClass "nth-of-type(even)") ;;
        inner <- cssSelectorBuilder.combine tr " " td ;;
        middle <- cssSelectorBuilder.combine table "~" inner ;;
        outer <- cssSelectorBuilder.combine div "+" middle ;;
        call outer Check.stringify) [])
  = Return "div#main.container.draggable + table#data ~ tr:nth-of-type(even)   td:nth-of-type(even)".
Proof. reflexivity. Qed.

(** * Further properties of the builder *)

(** ** [checkOrder] read as a scan of adjacent pairs *)

Lemma Sorted_adjacent (l : list Z) :
  Sorted Z.le l <->
  forall (i : nat) (a b : Z), l !! i = Some a -> l !! S i = Some b -> a <= b.
Proof.
  induction l as [|x l IH].
  - split; [intros _ i a b E; discriminate E | constructor].
  - split.
    + intros H. apply Sorted_inv in H as [Hs Hh]. intros [|i] a b Ea Eb.
      * cbn in Ea, Eb. injection Ea as <-. destruct l as [|y l]; [discriminate|].
        cbn in Eb. injection Eb as <-. now inversion Hh.
      * cbn in Ea, Eb. exact (proj1 IH Hs i a b Ea Eb).
    + intros H. constructor.
      * apply IH. intros i a b Ea Eb. exact (H (S i) a b Ea Eb).
      * destruct l as [|y l]; constructor.
        exact (H 0%nat x y eq_refl eq_refl).
Qed.

Lemma Sorted_or_descent (l : list Z) :
  Sorted Z.le l \/
  exists (i : nat) (a b : Z), l !! i = Some a /\ l !! S i = Some b /\ b < a.
Proof.
  induction l as [|x l [Hs|(i & a & b & Ea & Eb & Hlt)]].
  - left. constructor.
  - destruct l as [|y l]; [left; repeat constructor|].
    destruct (Z.le_gt_cases x y) as [Hle|Hgt].
    + left. constructor; [assumption | now constructor].
    + right. exists 0%nat, x, y. repeat split. lia.
  - right. now exists (S i), a, b.
Qed.

(** X1.  [checkOrder()] changes nothing on the builder.  It throws the
    out-of-order error exactly when some rank in [order] is greater than the
    rank right after it, and returns exactly when no rank is; the last
    rank, which has nothing after it, never makes it throw. *)
Theorem checkOrder_adjacent (this : Check.t) :
  snd (Check.checkOrder this) = this /\
  (fst (Check.checkOrder this) = Throw OutOfOrderError <->
   exists (i : nat) (a b : Z),
     Check.order this !! i = Some a /\ Check.order this !! S i = Some b /\
     b < a) /\
  (fst (Check.checkOrder this) = Return tt <->
   forall (i : nat) (a b : Z),
     Check.order this !! i = Some a -> Check.order this !! S i = Some b ->
     a <= b).
Proof.
  rewrite checkOrder_spec. cbn [fst snd]. split; [reflexivity|].
  destruct (decide (Sorted Z.le (Check.order this))) as [Hs|Hn].
  - pose proof (proj1 (Sorted_adjacent _) Hs) as Ha. split.
    + split; [discriminate|]. intros (i & a & b & Ea & Eb & Hlt).
      specialize (Ha i a b Ea Eb). lia.
    + split; [intros _; exact Ha | reflexivity].
  - split.
    + split; [intros _ | reflexivity].
      destruct (Sorted_or_descent (Check.order this)) as [Hs|E];
        [now destruct Hn | exact E].
    + split; [discriminate|]. intros Ha. destruct Hn.
      now apply Sorted_adjacent.
Qed.

(** ** The facade entry points *)

(** X2.  A facade entry point ([element], [id], [class], [attr],
    [pseudoClass], [pseudoElement]) never throws.  It returns a reference
    that named no builder before, to a builder on which [stringify()]
    returns the rendered fragment alone, and every builder there was is as
    it was. *)
Theorem facade_entry_fresh (f : fragment) (h : Heap) :
  exists (o : ref) (h' : Heap),
    start f h = (Return o, h') /\
    h !! o = None /\
    fst (call o Check.stringify h') = Return (rendered f) /\
    (exists this, h' !! o = Some this /\
       Check.order this = [rank (kind f)] /\
       forall k, seen k this = unique k && bool_decide (kind f = k)) /\
    forall (o' : ref) (this : Check.t),
      h !! o' = Some this -> h' !! o' = Some this.
Proof.
  exists (length h), (h ++ [recorded f (Check.constructor None)]).
  split; [apply start_spec|].
  split; [now apply lookup_ge_None|].
  split; [now rewrite (call_stringify _ _ _ (lookup_new h _))|].
  split.
  - exists (recorded f (Check.constructor None)).
    split; [apply lookup_new|]. split; [reflexivity|].
    intros k. destruct f as [[] v], k; reflexivity.
  - intros o' this E. now apply lookup_app_l_Some.
Qed.

(** X3.  A chain written against the facade -- an entry point, then
    methods on the builder it returns -- whose fragments honour the rank
    order and the at-most-once rule returns, and [stringify()] gives the
    rendered fragments concatenated, the first one included, whatever other
    builders exist. *)
Theorem facade_chain_stringify (f : fragment) (fs : list fragment)
    (h : Heap) :
  well_formed (f :: fs) ->
  fst ((o <- start f ;; call o (chain fs) ;; call o Check.stringify) h)
  = Return (concat_rendered (f :: fs)).
Proof.
  intros [Hs Hu]. rewrite start_chain. unfold bind at 1.
  rewrite chain_well_formed.
  - unfold Check.stringify, bind, get, ret. cbn [fst]. f_equal.
    apply test_foldl_recorded.
  - exact Hs.
  - intros k U. specialize (Hu k U).
    replace (seen k (Check.constructor None)) with false by now destruct k.
    lia.
Qed.

Lemma facade_chain_stringify_witness :
  let f := Fragment KElement "a" in
  let fs := [Fragment KAttr "href"; Fragment KPseudoClass "focus"] in
  let h := [Check.constructor (Some "other")] in
  well_formed (f :: fs) /\
  fst ((o <- start f ;; call o (chain fs) ;; call o Check.stringify) h)
  = Return "a[href]:focus".
Proof.
  assert (well_formed
    [Fragment KElement "a"; Fragment KAttr "href";
     Fragment KPseudoClass "focus"]) as W.
  { split; [cbn; repeat constructor; lia|].
    intros [] U; try discriminate U; vm_compute; lia. }
  split; [exact W|].
  exact (facade_chain_stringify (Fragment KElement "a")
           [Fragment KAttr "href"; Fragment KPseudoClass "focus"]
           [Check.constructor (Some "other")] W).
Defined.

(** ** Which chains return *)

Lemma chain_returns_inv (fs : list fragment) (this : Check.t) :
  Sorted Z.le (Check.order this) ->
  fst (chain fs this) = Return tt ->
  Sorted Z.le (Check.order this ++ (rank ∘ kind <$> fs)) /\
  forall k, unique k = true ->
    ((if seen k this then 1 else 0) + occurrences k fs <= 1)%nat.
Proof.
  revert this. induction fs as [|f fs IH]; intros this Hs Hr.
  - rewrite app_nil_r. split; [exact Hs|]. intros k _.
    unfold occurrences. cbn. destruct (seen k this); lia.
  - cbn [chain] in Hr. unfold bind in Hr. rewrite add_spec in Hr.
    destruct (seen (kind f) this) eqn:Hseen; [discriminate Hr|].
    destruct (decide (Sorted Z.le (Check.order this ++ [rank (kind f)])))
      as [Hs'|]; [|discriminate Hr].
    destruct (IH (recorded f this) Hs' Hr) as [Hsorted Hu].
    split.
    + rewrite fmap_cons, cons_middle, app_assoc. exact Hsorted.
    + intros k U. specialize (Hu k U). rewrite occurrences_cons.
      rewrite seen_recorded in Hu by exact U.
      destruct (decide (kind f = k)) as [<-|N].
      * rewrite bool_decide_eq_true_2 in * by reflexivity.
        rewrite Hseen. cbn in Hu. lia.
      * rewrite bool_decide_eq_false_2 in * by exact N. exact Hu.
Qed.

(** X4.  A chain of calls on a new builder returns exactly when its
    fragments come in non-decreasing rank with element, id and
    pseudo-element at most once each: any other chain throws. *)
Theorem chain_returns_iff (val : option string) (fs : list fragment) :
  fst (chain fs (Check.constructor val)) = Return tt <-> well_formed fs.
Proof.
  split.
  - intros Hr. apply chain_returns_inv in Hr as [Hs Hu]; [|constructor].
    split; [exact Hs|]. intros k U. specialize (Hu k U).
    replace (seen k (Check.constructor val)) with false in Hu
      by now destruct k.
    lia.
  - intros [Hs Hu]. rewrite chain_well_formed; [reflexivity | exact Hs |].
    intros k U. specialize (Hu k U).
    replace (seen k (Check.constructor val)) with false by now destruct k.
    lia.
Qed.

(** ** Which calls throw the duplicate error *)

Lemma seen_attempts (k : Kind) (fs : list fragment) (this : Check.t) :
  unique k = true ->
  seen k (snd (attempts fs this))
  = seen k this || bool_decide (0 < occurrences k fs)%nat.
Proof.
  intros U. revert this. induction fs as [|f fs IH]; intros this.
  - cbn. now rewrite orb_false_r.
  - rewrite attempts_cons. cbn [snd]. rewrite IH, occurrences_cons.
    assert (seen k (snd (add f this))
            = seen k this || bool_decide (kind f = k)) as ->.
    { rewrite add_spec. destruct (seen (kind f) this) eqn:E; cbn [snd].
      - destruct (decide (kind f = k)) as [<-|N].
        + now rewrite E.
        + now rewrite bool_decide_eq_false_2, orb_false_r.
      - rewrite seen_recorded by exact U. apply orb_comm. }
    destruct (bool_decide (kind f = k)).
    + rewrite orb_true_r, (bool_decide_eq_true_2 (0 < 1 + _)%nat) by lia.
      now rewrite orb_true_r.
    + now rewrite orb_false_r.
Qed.

(** X5.  After any history of calls on a new builder, a call throws the
    duplicate error exactly when it is [element], [id] or [pseudoElement]
    and that same method was called before: the first call of each never
    throws it, and [class], [attr] and [pseudoClass] never do. *)
Theorem duplicate_error_iff (val : option string) (fs : list fragment)
    (f : fragment) :
  fst (add f (snd (attempts fs (Check.constructor val))))
  = Throw DuplicateFragmentError <->
  unique (kind f) = true /\ (0 < occurrences (kind f) fs)%nat.
Proof.
  rewrite add_spec.
  destruct (unique (kind f)) eqn:U.
  - rewrite (seen_attempts _ fs _ U).
    replace (seen (kind f) (Check.constructor val)) with false
      by now destruct (kind f).
    cbn [orb]. destruct (decide (0 < occurrences (kind f) fs)%nat) as [H|H].
    + rewrite bool_decide_eq_true_2 by exact H. now split.
    + rewrite bool_decide_eq_false_2 by exact H. cbn [fst]. split.
      * destruct (decide _); [discriminate|].
        intros E. symmetry in E. now destruct (thrown_errors_differ E).
      * now intros [_ ?].
  - rewrite seen_not_unique by exact U. cbn [fst]. split; [|now intros [? _]].
    destruct (decide _); [discriminate|].
    intros E. symmetry in E. now destruct (thrown_errors_differ E).
Qed.

(** ** After an out-of-order error *)

(** X6.  Once a call on a builder has thrown the out-of-order error, no
    later fragment call on that builder returns: each throws the
    out-of-order error again, or the duplicate error when it repeats an
    element, id or pseudo-element. *)
Theorem failed_builder_stays_failed (val : option string)
    (fs : list fragment) (f : fragment) :
  Throw OutOfOrderError ∈ fst (attempts fs (Check.constructor val)) ->
  let this := snd (attempts fs (Check.constructor val)) in
  fst (add f this)
  = Throw (if seen (kind f) this then DuplicateFragmentError
           else OutOfOrderError).
Proof.
  intros Hin this. rewrite add_spec.
  destruct (seen (kind f) this); [reflexivity|]. cbn [fst].
  rewrite decide_False; [reflexivity|].
  intros Hs%Sorted_app_l. subst this.
  apply attempts_Sorted in Hs as [_ Hnot]. exact (Hnot Hin).
Qed.

Lemma failed_builder_stays_failed_witness :
  let fs := [Fragment KClass "a"; Fragment KElement "b"] in
  Throw OutOfOrderError ∈ fst (attempts fs (Check.constructor None)) /\
  fst (add (Fragment KPseudoElement "c")
         (snd (attempts fs (Check.constructor None))))
  = Throw OutOfOrderError.
Proof.
  assert (Throw OutOfOrderError
          ∈ fst (attempts [Fragment KClass "a"; Fragment KElement "b"]
                   (Check.constructor None))) as Hin.
  { apply list_elem_of_further, list_elem_of_here. }
  split; [exact Hin|].
  exact (failed_builder_stays_failed None
           [Fragment KClass "a"; Fragment KElement "b"]
           (Fragment KPseudoElement "c") Hin).
Defined.

(** ** The flags and the recorded ranks *)

Lemma rank_inj (k1 k2 : Kind) : rank k1 = rank k2 -> k1 = k2.
Proof. destruct k1, k2; (reflexivity || discriminate). Qed.

Lemma rank_count_add (k : Kind) (f : fragment) (this : Check.t) :
  unique k = true ->
  length (filter (fun r => r = rank k) (Check.order this))
  = (if seen k this then 1 else 0)%nat ->
  length (filter (fun r => r = rank k) (Check.order (snd (add f this))))
  = (if seen k (snd (add f this)) then 1 else 0)%nat.
Proof.
  intros U H. rewrite add_spec.
  destruct (seen (kind f) this) eqn:E; cbn [snd]; [exact H|].
  rewrite seen_recorded by exact U. cbn [recorded Check.order].
  rewrite filter_app, length_app, H.
  destruct (decide (kind f = k)) as [<-|N].
  - rewrite bool_decide_eq_true_2, E by reflexivity.
    rewrite filter_cons_True by reflexivity. reflexivity.
  - rewrite bool_decide_eq_false_2 by exact N.
    rewrite filter_cons_False by (intros R; apply N, rank_inj, R).
    cbn. lia.
Qed.

Lemma rank_range_add (f : fragment) (this : Check.t) :
  Forall (fun r => 0 <= r <= 5) (Check.order this) ->
  Forall (fun r => 0 <= r <= 5) (Check.order (snd (add f this))).
Proof.
  intros H. rewrite add_spec.
  destruct (seen (kind f) this); cbn [snd]; [exact H|].
  cbn [recorded Check.order]. apply Forall_app. split; [exact H|].
  constructor; [|constructor]. destruct (kind f); cbn; lia.
Qed.

(** X7.  However a new builder has been used, rank 0 occurs in [order]
    once when [element1] is set and not at all otherwise, and so do rank 1
    with [id1] and rank 5 with [pseudoElement1]: none of the three is ever
    recorded twice.  Every recorded rank lies between 0 and 5. *)
Theorem flags_match_order (val : option string) (fs : list fragment)
    (k : Kind) :
  unique k = true ->
  let this := snd (attempts fs (Check.constructor val)) in
  length (filter (fun r => r = rank k) (Check.order this))
  = (if seen k this then 1 else 0)%nat /\
  Forall (fun r => 0 <= r <= 5) (Check.order this).
Proof.
  intros U. cbn zeta.
  assert (forall this,
    length (filter (fun r => r = rank k) (Check.order this))
    = (if seen k this then 1 else 0)%nat /\
    Forall (fun r => 0 <= r <= 5) (Check.order this) ->
    length (filter (fun r => r = rank k)
              (Check.order (snd (attempts fs this))))
    = (if seen k (snd (attempts fs this)) then 1 else 0)%nat /\
    Forall (fun r => 0 <= r <= 5) (Check.order (snd (attempts fs this))))
    as H.
  { induction fs as [|f fs IH]; intros this [Hc Hr]; [now split|].
    rewrite attempts_cons. cbn [snd]. apply IH.
    split; [now apply rank_count_add | now apply rank_range_add]. }
  apply H. split; [|constructor]. now destruct k.
Qed.

Lemma flags_match_order_witness :
  let fs := [Fragment KId "a"; Fragment KClass "b"; Fragment KId "c";
             Fragment KElement "d"; Fragment KId "e"] in
  let this := snd (attempts fs (Check.constructor None)) in
  unique KId = true /\
  length (filter (fun r => r = rank KId) (Check.order this)) = 1%nat /\
  Forall (fun r => 0 <= r <= 5) (Check.order this).
Proof.
  split; [reflexivity|].
  exact (flags_match_order None
           [Fragment KId "a"; Fragment KClass "b"; Fragment KId "c";
            Fragment KElement "d"; Fragment KId "e"] KId eq_refl).
Defined.

(** ** [combine] copies text, not builders *)




(** ** The state after any history *)

Lemma order_foldl_recorded (fs : list fragment) (this : Check.t) :
  Check.order (foldl (fun this f => recorded f this) this fs)
  = Check.order this ++ (rank ∘ kind <$> fs).
Proof.
  revert this. induction fs as [|f fs IH]; intros this.
  - now rewrite app_nil_r.
  - cbn [foldl]. rewrite IH. cbn [recorded Check.order].
    now rewrite <- app_assoc.
Qed.

Lemma attempts_accepted (ks : list Kind) (fs : list fragment)
    (this : Check.t) :
  (forall k, unique k = true -> seen k this = bool_decide (k ∈ ks)) ->
  snd (attempts fs this)
  = foldl (fun this f => recorded f this) this (accepted_after ks fs).
Proof.
  revert ks this. induction fs as [|f fs IH]; intros ks this H;
    [reflexivity|].
  rewrite attempts_cons. cbn [snd accepted_after]. rewrite add_spec.
  assert (seen (kind f) this
          = unique (kind f) && bool_decide (kind f ∈ ks)) as ->.
  { destruct (unique (kind f)) eqn:U; [now apply H|].
    now apply seen_not_unique. }
  destruct (unique (kind f) && bool_decide (kind f ∈ ks)) eqn:D; cbn [snd].
  - now apply IH.
  - cbn [foldl]. apply IH. intros k U. rewrite seen_recorded, H by exact U.
    destruct (decide (kind f = k)) as [<-|N].
    + rewrite (bool_decide_eq_true_2 (kind f = kind f)) by reflexivity.
      now rewrite (bool_decide_eq_true_2 (kind f ∈ kind f :: ks))
        by apply list_elem_of_here.
    + rewrite (bool_decide_eq_false_2 _ N). cbn [orb].
      apply bool_decide_ext. rewrite elem_of_cons. intuition congruence.
Qed.

(** X9.  Whatever calls were made on a new builder, and however each
    ended, its string is the constructor's text followed by the rendered
    forms of the calls that were not duplicates, and its recorded ranks are
    the ranks of those same calls, both in the order of the calls: only a
    duplicate call leaves no trace. *)
Theorem history_state (val : option string) (fs : list fragment) :
  Check.test (snd (attempts fs (Check.constructor val)))
  = default "" val +:+ concat_rendered (accepted fs) /\
  Check.order (snd (attempts fs (Check.constructor val)))
  = (rank ∘ kind <$> accepted fs).
Proof.
  unfold accepted. rewrite (attempts_accepted [] fs).
  - split; [apply test_foldl_recorded | apply order_foldl_recorded].
  - intros k _. rewrite bool_decide_eq_false_2 by apply not_elem_of_nil.
    now destruct k.
Qed.

(** ** Nesting [combine] to the left or to the right *)

(** X10.  For any two combinator texts, combining [A] with [B] first and
    the result with [C], or [B] with [C] first and [A] with the result,
    gives builders with the same string. *)
Theorem combine_assoc (h : Heap) (A B C : ref)
    (combinator1 combinator2 a b c : string) :
  fst (call A Check.stringify h) = Return a ->
  fst (call B Check.stringify h) = Return b ->
  fst (call C Check.stringify h) = Return c ->
  fst ((x <- cssSelectorBuilder.combine A combinator1 B ;;
        z <- cssSelectorBuilder.combine x combinator2 C ;;
        call z Check.stringify) h)
  = fst ((y <- cssSelectorBuilder.combine B combinator2 C ;;
          z <- cssSelectorBuilder.combine A combinator1 y ;;
          call z Check.stringify) h) /\
  fst ((x <- cssSelectorBuilder.combine A combinator1 B ;;
        z <- cssSelectorBuilder.combine x combinator2 C ;;
        call z Check.stringify) h)
  = Return (a +:+ " " +:+ combinator1 +:+ " " +:+ b +:+ " "
            +:+ combinator2 +:+ " " +:+ c).
Proof.
  intros (sa & Ea & <-)%call_stringify_inv (sb & Eb & <-)%call_stringify_inv
         (sc & Ec & <-)%call_stringify_inv.
  assert (fst ((x <- cssSelectorBuilder.combine A combinator1 B ;;
                z <- cssSelectorBuilder.combine x combinator2 C ;;
                call z Check.stringify) h)
          = Return (Check.test sa +:+ " " +:+ combinator1 +:+ " "
                    +:+ Check.test sb +:+ " " +:+ combinator2 +:+ " "
                    +:+ Check.test sc)) as L.
  { unfold bind at 1. rewrite (combine_spec h _ _ _ _ _ Ea Eb).
    set (x := Check.constructor _). unfold bind at 1.
    rewrite (combine_spec (h ++ [x]) _ _ combinator2 x sc
               (lookup_new h x)) by now apply lookup_app_l_Some.
    rewrite (call_stringify _ _ _ (lookup_new _ _)). cbn [fst]. f_equal.
    subst x. cbn [Check.constructor Check.test default]. cbv [id].
    now rewrite !append_assoc. }
  split; [|exact L]. rewrite L.
  unfold bind at 1. rewrite (combine_spec h _ _ _ _ _ Eb Ec).
  set (y := Check.constructor _). unfold bind at 1.
  rewrite (combine_spec (h ++ [y]) _ _ combinator1 sa y)
    by (apply lookup_new || now apply lookup_app_l_Some).
  now rewrite (call_stringify _ _ _ (lookup_new _ _)).
Qed.

Lemma combine_assoc_witness :
  let h := [Check.constructor (Some "div"); Check.constructor (Some "p");
            Check.constructor (Some "a")] in
  fst ((x <- cssSelectorBuilder.combine 0%nat ">" 1%nat ;;
        z <- cssSelectorBuilder.combine x "+" 2%nat ;;
        call z Check.stringify) h)
  = fst ((y <- cssSelectorBuilder.combine 1%nat "+" 2%nat ;;
          z <- cssSelectorBuilder.combine 0%nat ">" y ;;
          call z Check.stringify) h) /\
  fst ((x <- cssSelectorBuilder.combine 0%nat ">" 1%nat ;;
        z <- cssSelectorBuilder.combine x "+" 2%nat ;;
        call z Check.stringify) h)
  = Return "div > p + a".
Proof.
  apply (combine_assoc
           [Check.constructor (Some "div"); Check.constructor (Some "p");
            Check.constructor (Some "a")]
           0%nat 1%nat 2%nat ">" "+" "div" "p" "a");
    reflexivity.
Defined.
